(** * lld/ELF/BPSectionOrderer.h: the ELF section and symbol adapters

    A shallow embedding of the two adapter classes of
    [lld/ELF/BPSectionOrderer.h], [ELFSymbol] and [ELFSection], which expose
    the linker's symbols and input sections to the balanced-partitioning
    section orderer, and of the signature computed by
    [ELFSection::getSectionHash].

    Conventions.
    - [uint64_t] values are integers of [Z]; [size_t] indices and lengths are
      [nat]; [uint8_t] is [byte].
    - A method that can dereference a null pointer, violate an assertion or
      read outside an array returns an [outcome].
    - The [mutable] member [symbolCache] of an [ELFSection] object and the
      function-local [static] vector of [getSymbols] live in an explicit
      [AdapterState] that the stateful method threads. *)

From Stdlib.Strings Require Import Byte.
From stdpp Require Import base numbers option list sorting strings gmap.

Local Open Scope Z_scope.

(** ** Outcomes of a method call *)

Inductive error : Type :=
  | NullDeref     (* a member access through a null pointer *)
  | AssertFail    (* a failed [assert] of an LLVM container *)
  | OutOfBounds.  (* a read outside the memory behind an array *)

Inductive outcome (A : Type) : Type :=
  | Ok (a : A)
  | Err (e : error).
Arguments Ok {A} a.
Arguments Err {A} e.

#[global] Instance outcome_ret : MRet outcome := λ A a, Ok a.
#[global] Instance outcome_bind : MBind outcome := λ A B f m,
  match m with
  | Ok a => f a
  | Err e => Err e
  end.

(** [p->member]: the pointee of a pointer that may be null. *)
Definition deref {A} (p : option A) : outcome A :=
  match p with
  | Some a => Ok a
  | None => Err NullDeref
  end.

(** ** The linker's symbols and sections *)

(** Modelled from the spec: [lld/ELF/Symbols.h] is not among the sources.
    The fields of a [Defined] symbol that the adapter reads ([value], [size])
    and the section that owns it ([section], named by the address of the
    [InputSectionBase]; [None] for an absolute symbol). *)
Record Defined : Type := mkDefined {
  value : Z;
  size : Z;
  section : option N
}.

(** Modelled from the spec: [lld/ELF/Symbols.h] is not among the sources.
    A symbol has a name and is a defined symbol or not; [dyn_cast_Defined] is
    [llvm::dyn_cast<Defined>(sym)], null for every other kind of symbol. *)
Record Symbol : Type := mkSymbol {
  symName : string;
  dyn_cast_Defined : option Defined
}.

(** Modelled from the spec: [lld/ELF/InputFiles.h] is not among the sources.
    Of an object file the adapter reads the symbol table, [getSymbols()]. *)
Record InputFile : Type := mkInputFile {
  fileSymbols : list Symbol
}.

(** Modelled from the spec: [lld/ELF/InputSection.h] is not among the
    sources.  An input section has an identity ([addr], its address), a name,
    a byte size ([getSize()]), section flags, raw content ([content()],
    possibly empty) and the object file it comes from. *)
Record InputSectionBase : Type := mkInputSectionBase {
  addr : N;
  name : string;
  secSize : Z;
  flags : Z;
  content : list byte;
  file : InputFile
}.

(** [llvm::ELF::SHF_EXECINSTR]. *)
Definition SHF_EXECINSTR : Z := 4.

(** ** [class ELFSymbol : public BPSymbol] *)

Module ELFSymbol.

Record t : Type := mk { sym : Symbol }.

Definition getName (this : t) : string := symName (sym this).

Definition asDefinedSymbol (this : t) : option t :=
  match dyn_cast_Defined (sym this) with
  | Some d => Some this
  | None => None
  end.

Definition getValue (this : t) : Z :=
  match dyn_cast_Defined (sym this) with
  | Some d => value d
  | None => 0
  end.

Definition getSize (this : t) : Z :=
  match dyn_cast_Defined (sym this) with
  | Some d => size d
  | None => 0
  end.

Definition getSymbol (this : t) : Symbol := sym this.

End ELFSymbol.

(** ** [llvm::sort] and [std::unique] on a vector of hashes *)

(** [llvm::sort(hashes)]: the hashes in non-decreasing order.  On integers
    every sorting algorithm returns the same vector; a merge sort stands for
    the one of the C++ library. *)
Definition sort (hashes : list Z) : list Z := merge_sort Z.le hashes.

(** The scan of [std::unique]: [prev] is the last element kept; an element
    equal to it is dropped, any other is kept and becomes [prev]. *)
Fixpoint unique_from (prev : Z) (l : list Z) : list Z :=
  match l with
  | [] => []
  | y :: l' =>
      if decide (prev = y) then unique_from prev l' else y :: unique_from y l'
  end.

(** [hashes.erase(std::unique(hashes.begin(), hashes.end()), hashes.end())]:
    of every run of equal adjacent elements the first one remains. *)
Definition unique (l : list Z) : list Z :=
  match l with
  | [] => []
  | x :: l' => x :: unique_from x l'
  end.

(** ** [class ELFSection : public BPSectionBase] *)

(** The state the adapter mutates.  [heap] holds the [ELFSymbol] objects made
    by [std::make_unique], an object's address being its index;
    [symbolCache] is the [mutable] member of each [ELFSection] object, keyed
    by the object's identity (an absent key is an empty vector); [result] is
    the [static std::vector<BPSymbol *> result] of [getSymbols], one vector
    for the whole process. *)
Record AdapterState : Type := mkState {
  heap : list ELFSymbol.t;
  symbolCache : gmap N (list nat);
  result : list nat
}.

Definition initialState : AdapterState := mkState [] ∅ [].

(** The [symbolCache] member of the [ELFSection] object [this]. *)
Definition cacheOf (st : AdapterState) (this : N) : list nat :=
  default [] (symbolCache st !! this).

(** The [llvm::ArrayRef<BPSymbol *>] that [getSymbols] returns: it points at
    the elements of the static vector and carries their number. *)
Record SymbolsRef : Type := mkSymbolsRef { refLength : nat }.

(** Reading a returned array in a given state: the pointers now stored in the
    static vector at the array's positions; an array longer than the vector
    points outside its elements. *)
Definition readRef (st : AdapterState) (r : SymbolsRef) : outcome (list nat) :=
  if decide (refLength r ≤ length (result st))%nat
  then Ok (take (refLength r) (result st))
  else Err OutOfBounds.

(** The symbols behind the wrappers of a returned array. *)
Definition readSymbols (st : AdapterState) (r : SymbolsRef)
  : outcome (list Symbol) :=
  ptrs ← readRef st r;
  match mapM (M := option) (λ p : nat, heap st !! p) ptrs with
  | Some ws => Ok (ELFSymbol.getSymbol <$> ws)
  | None => Err OutOfBounds
  end.

(** The symbols that a section owns, as the specification speaks of them:
    the defined symbols of its object file whose [section] is that section.
    No method of the adapter computes this list. *)
Definition ownedSymbols (s : InputSectionBase) : list Symbol :=
  filter (λ y, section <$> dyn_cast_Defined y = Some (Some (addr s)))
         (fileSymbols (file s)).

Module ELFSection.

(** An [ELFSection] object: [this] is its identity, [isec] the pointer it
    wraps, which the constructor does not check for null. *)
Record t : Type := mk {
  this : N;
  isec : option InputSectionBase
}.

Definition getSection (sec : t) : option InputSectionBase := isec sec.

Definition getName (sec : t) : outcome string :=
  s ← deref (isec sec); mret (name s).

Definition getSize (sec : t) : outcome Z :=
  s ← deref (isec sec); mret (secSize s).

Definition isCodeSection (sec : t) : outcome bool :=
  s ← deref (isec sec);
  mret (negb (Z.land (flags s) SHF_EXECINSTR =? 0)).

Definition hasValidData (sec : t) : bool :=
  match isec sec with
  | None => false
  | Some s => negb (bool_decide (length (content s) = 0%nat))
  end.

Definition getSectionData (sec : t) : outcome (list byte) :=
  s ← deref (isec sec); mret (content s).

(** The bytes that back a section: those of [isec->content()], none when
    there is no underlying section. *)
Definition backingBytes (sec : t) : list byte :=
  match isec sec with
  | None => []
  | Some s => content s
  end.

(** [symbolCache.push_back(std::make_unique<ELFSymbol>(sym))] for every
    symbol of the file, in order. *)
Definition fillCache (syms : list Symbol) (hc : list ELFSymbol.t * list nat)
  : list ELFSymbol.t * list nat :=
  foldl (λ '(h, c) y, (h ++ [ELFSymbol.mk y], c ++ [length h])) hc syms.

Definition getSymbols (sec : t) (st : AdapterState)
  : outcome (SymbolsRef * AdapterState) :=
  st1 ← (if bool_decide (cacheOf st (this sec) = [])
         then s ← deref (isec sec);
              let '(h, c) := fillCache (fileSymbols (file s))
                                       (heap st, cacheOf st (this sec)) in
              mret (mkState h (<[this sec := c]> (symbolCache st))
                            (result st))
         else mret st);
  let result := cacheOf st1 (this sec) in
  mret (mkSymbolsRef (length result),
        mkState (heap st1) (symbolCache st1) result).

Definition classof (s : t) : bool := true.

Section SectionHash.

(** [llvm::xxHash64] ([llvm/Support/xxhash.h]) is not among the sources:
    a function from the bytes of a window to a [uint64_t]. *)
Variable xxHash64 : list byte → Z.

(** [llvm::ArrayRef] ([llvm/ADT/ArrayRef.h]) is not among the sources.  Its
    [slice(N, M)] is [assert(N + M <= size()); return
    ArrayRef(data() + N, M)].  What a slice that is not within the array
    gives is left to [oob]: a failed assertion where assertions are
    compiled in, otherwise whatever lies in memory behind the array. *)
Variable oob : list byte → nat → nat → outcome (list byte).

Definition windowSize : nat := 4.

(** [a.slice(N, M)]: the [M] elements from index [N] on when they lie
    within the array, and [oob] otherwise. *)
Definition slice (a : list byte) (N M : nat) : outcome (list byte) :=
  if decide (N + M ≤ length a)%nat then Ok (take M (drop N a))
  else oob a N M.

(** [for (auto &[sec, idx] : sectionToIdx) elfSectionToIdx[...] = idx]:
    the map rekeyed by the wrapped section pointers.  [sectionToIdx] is
    given by its entries; [dyn_cast<ELFSection>] succeeds on every key
    since [classof] is constantly true. *)
Definition convertMap (sectionToIdx : list (t * Z)) : gmap (option N) Z :=
  foldl (λ m '(sec, idx),
           if classof sec then <[addr <$> getSection sec := idx]> m else m)
        ∅ sectionToIdx.

(** [for (size_t i = 0; i < isec->content().size(); i++)], with [n]
    iterations left at index [i]. *)
Fixpoint contentLoop (c : list byte) (n i : nat) (hashes : list Z)
  : outcome (list Z) :=
  match n with
  | O => Ok hashes
  | S n' =>
      window ← slice c i windowSize;
      contentLoop c n' (S i) (hashes ++ [xxHash64 window])
  end.

Definition getSectionHash (sec : t) (hashes : list Z)
    (sectionToIdx : list (t * Z)) : outcome (list Z) :=
  let elfSectionToIdx := convertMap sectionToIdx in
  s ← deref (isec sec);
  hashes ← contentLoop (content s) (length (content s)) 0 hashes;
  mret (unique (sort hashes)).

End SectionHash.

End ELFSection.

(** ** Two behaviours of a slice outside the array *)

(** A build with assertions: [ArrayRef::slice] aborts. *)
Definition oob_assert : list byte → nat → nat → outcome (list byte) :=
  λ _ _ _, Err AssertFail.

(** A build without assertions: the slice is read from the array followed by
    the bytes [behind] it in memory, as far as they reach. *)
Definition oob_read (behind : list byte)
  : list byte → nat → nat → outcome (list byte) :=
  λ a N M,
    if decide (N + M ≤ length (a ++ behind))%nat
    then Ok (take M (drop N (a ++ behind)))
    else Err OutOfBounds.

(** A stand-in for the hash function in examples: the bytes of the window
    read as a little-endian number. *)
Fixpoint le_bytes (w : list byte) : Z :=
  match w with
  | [] => 0
  | b :: w' => Z.of_N (Byte.to_N b) + 256 * le_bytes w'
  end.

(** The number of occurrences of a hash in a vector. *)
Definition occurrences (h : Z) (l : list Z) : nat :=
  length (filter (λ x, x = h) l).

(** ** Sample inputs *)

Module Sample.

Definition f : Symbol := mkSymbol "f" (Some (mkDefined 0 8 (Some 1%N))).
Definition g : Symbol := mkSymbol "g" (Some (mkDefined 16 4 (Some 2%N))).
Definition h : Symbol := mkSymbol "h" None.
Definition k : Symbol := mkSymbol "k" (Some (mkDefined 0 2 (Some 3%N))).
Definition m : Symbol := mkSymbol "m" None.
Definition n : Symbol := mkSymbol "n" None.

(** An object file with two sections, [.text.f] owning [f] and [.text.g]
    owning [g], and an undefined symbol [h]. *)
Definition fileA : InputFile := mkInputFile [f; g; h].
Definition isecF : InputSectionBase :=
  mkInputSectionBase 1 ".text.f" 2 6 [x01; x02] fileA.
Definition isecG : InputSectionBase :=
  mkInputSectionBase 2 ".text.g" 6 6 [x07; x07; x07; x07; x07; x07] fileA.

(** A second object file with one section. *)
Definition fileC : InputFile := mkInputFile [k; m; n].
Definition isecK : InputSectionBase :=
  mkInputSectionBase 3 ".data.k" 1 3 [x2a] fileC.

(** A section without content, as [.bss] is. *)
Definition isecBss : InputSectionBase :=
  mkInputSectionBase 4 ".bss" 64 3 [] fileC.

Definition secF : ELFSection.t := ELFSection.mk 10 (Some isecF).
Definition secG : ELFSection.t := ELFSection.mk 11 (Some isecG).
Definition secK : ELFSection.t := ELFSection.mk 12 (Some isecK).
Definition secBss : ELFSection.t := ELFSection.mk 13 (Some isecBss).

(** Three zero bytes in memory behind a section's content. *)
Definition zeros : list byte := [x00; x00; x00].

(** The adapter's state after [getSymbols] on [secF], and after
    [getSymbols] on [secF] and then on [secK]. *)
Definition stF : AdapterState :=
  mkState (ELFSymbol.mk <$> [f; g; h]) {[ 10%N := [0; 1; 2]%nat ]}
          [0; 1; 2]%nat.
Definition stFK : AdapterState :=
  mkState (ELFSymbol.mk <$> [f; g; h; k; m; n])
          (<[ 12%N := [3; 4; 5]%nat ]> {[ 10%N := [0; 1; 2]%nat ]})
          [3; 4; 5]%nat.

End Sample.

(** ** Invariants *)

(** No pointer kept by the adapter dangles: every pointer in a section's
    memoized list and in the static vector is the address of an [ELFSymbol]
    object on the heap. *)
Definition wfState (st : AdapterState) : Prop :=
  (∀ k c, symbolCache st !! k = Some c →
          Forall (λ p, p < length (heap st))%nat c) ∧
  Forall (λ p, p < length (heap st))%nat (result st).

(** ** Further sample inputs *)

Module Sample2.

(** An adapter built over a null section pointer. *)
Definition secNull : ELFSection.t := ELFSection.mk 99 None.

(** The adapter's state after [getSymbols] on [Sample.secF] and then on
    [Sample.secG], a section of the same file. *)
Definition stFG : AdapterState :=
  mkState (ELFSymbol.mk <$> [Sample.f; Sample.g; Sample.h;
                             Sample.f; Sample.g; Sample.h])
          (<[ 11%N := [3; 4; 5]%nat ]> {[ 10%N := [0; 1; 2]%nat ]})
          [3; 4; 5]%nat.

(** A section of an object file without symbols. *)
Definition isecE : InputSectionBase :=
  mkInputSectionBase 5 ".rodata" 1 2 [x00] (mkInputFile []).
Definition secE : ELFSection.t := ELFSection.mk 14 (Some isecE).

End Sample2.

(** * Properties *)

Import ELFSection.

Ltac outcome_simpl :=
  repeat (unfold mbind, mret, outcome_bind, outcome_ret, deref in *;
          simpl in *).

(** ** [llvm::sort] followed by [std::unique] *)

Lemma elem_of_unique_from (p x : Z) (l : list Z) :
  x ∈ p :: unique_from p l ↔ x ∈ p :: l.
Proof.
  revert p. induction l as [|y l IH]; intros p; simpl; [done|].
  destruct (decide (p = y)) as [->|Hne].
  - rewrite IH, !elem_of_cons. tauto.
  - rewrite !(elem_of_cons _ x p). by rewrite IH.
Qed.

Lemma elem_of_unique (x : Z) (l : list Z) : x ∈ unique l ↔ x ∈ l.
Proof. destruct l as [|p l]; [done|]. apply elem_of_unique_from. Qed.

Lemma unique_from_increasing (p : Z) (l : list Z) :
  Forall (Z.le p) l → StronglySorted Z.le l →
  Forall (Z.lt p) (unique_from p l) ∧ StronglySorted Z.lt (unique_from p l).
Proof.
  revert p. induction l as [|y l IH]; intros p Hp Hs; simpl.
  - split; constructor.
  - apply Forall_cons in Hp as [Hpy Hp].
    apply StronglySorted_inv in Hs as [Hs Hy].
    destruct (decide (p = y)) as [->|Hne]; [by apply IH|].
    destruct (IH y Hy Hs) as [Hlt Hss]. split.
    + constructor; [lia|]. eapply Forall_impl; [exact Hlt|]. intros; simpl in *; lia.
    + by constructor.
Qed.

Lemma unique_sort_increasing (l : list Z) : StronglySorted Z.lt (unique (sort l)).
Proof.
  unfold sort.
  pose proof (StronglySorted_merge_sort Z.le l) as Hs.
  destruct (merge_sort Z.le l) as [|p l']; [constructor|]. simpl.
  apply StronglySorted_inv in Hs as [Hs Hp].
  destruct (unique_from_increasing p l' Hp Hs). by constructor.
Qed.

Lemma elem_of_unique_sort (x : Z) (l : list Z) : x ∈ unique (sort l) ↔ x ∈ l.
Proof.
  rewrite elem_of_unique. unfold sort. by rewrite merge_sort_Permutation.
Qed.

Lemma occurrences_increasing (h : Z) (l : list Z) :
  StronglySorted Z.lt l →
  occurrences h l = if decide (h ∈ l) then 1%nat else 0%nat.
Proof.
  unfold occurrences. induction 1 as [|x l Hs IH Hx]; [done|].
  rewrite filter_cons. destruct (decide (x = h)) as [->|Hne]; simpl.
  - rewrite decide_True by apply list_elem_of_here.
    rewrite IH, decide_False; [done|].
    intros Hin. rewrite Forall_forall in Hx. specialize (Hx _ Hin). lia.
  - rewrite IH. repeat case_decide; rewrite ?elem_of_cons in *; intuition congruence.
Qed.

(** ** The content-hashing loop *)

Section ContentLoop.

Variable xxHash64 : list byte → Z.
Variable oob : list byte → nat → nat → outcome (list byte).

(** A loop that runs to its end has pushed one hash for each of its [n]
    indices, each the hash of the window sliced at that index. *)
Lemma contentLoop_Ok (c : list byte) (n i : nat) (hashes hashes' : list Z) :
  contentLoop xxHash64 oob c n i hashes = Ok hashes' →
  ∃ pushed,
    hashes' = hashes ++ pushed ∧ length pushed = n ∧
    ∀ j, (j < n)%nat →
      ∃ w, slice oob c (i + j) windowSize = Ok w ∧
           pushed !! j = Some (xxHash64 w).
Proof.
  revert i hashes. induction n as [|n IH]; intros i hashes H; simpl in H.
  - exists []. injection H as <-. rewrite app_nil_r.
    repeat split; intros; lia.
  - destruct (slice oob c i windowSize) as [w|e] eqn:Hw; outcome_simpl;
      [|discriminate].
    destruct (IH _ _ H) as (pushed & -> & Hlen & Hj).
    exists (xxHash64 w :: pushed). rewrite <- app_assoc. simpl.
    repeat split; [lia|]. intros [|j] Hlt.
    + exists w. by rewrite Nat.add_0_r.
    + destruct (Hj j ltac:(lia)) as (w' & Hs & Hl).
      exists w'. by rewrite Nat.add_succ_r.
Qed.

(** The hashes already in the vector play no part in the loop. *)
Lemma contentLoop_app (c : list byte) (n i : nat) (hashes : list Z) :
  contentLoop xxHash64 oob c n i hashes
  = pushed ← contentLoop xxHash64 oob c n i []; mret (hashes ++ pushed).
Proof.
  revert i hashes. induction n as [|n IH]; intros i hashes; simpl.
  - outcome_simpl. by rewrite app_nil_r.
  - destruct (slice oob c i windowSize) as [w|e]; outcome_simpl; [|done].
    rewrite (IH _ (hashes ++ _)), (IH _ [_]).
    destruct (contentLoop xxHash64 oob c n (S i) []); [|done].
    by rewrite <- app_assoc.
Qed.

Lemma getSectionHash_Ok (sec : t) (hashes sig : list Z)
    (sectionToIdx : list (t * Z)) :
  getSectionHash xxHash64 oob sec hashes sectionToIdx = Ok sig →
  ∃ s pushed,
    isec sec = Some s ∧
    contentLoop xxHash64 oob (content s) (length (content s)) 0 [] = Ok pushed ∧
    sig = unique (sort (hashes ++ pushed)).
Proof.
  unfold getSectionHash. destruct (isec sec) as [s|]; outcome_simpl;
    [|discriminate].
  rewrite contentLoop_app. outcome_simpl.
  destruct (contentLoop _ _ _ _ _ _) as [pushed|] eqn:Hloop; [|discriminate].
  intros [= H]. by exists s, pushed.
Qed.

End ContentLoop.

(** ** The symbol adapter *)

(** C8: [asDefinedSymbol] returns the wrapper itself when the wrapped symbol
    is a [Defined] symbol and null otherwise; [getValue] and [getSize] return
    the [value] and [size] of a defined symbol and 0 for any other symbol. *)
Theorem ELFSymbol_defined_or_zero (this : ELFSymbol.t) :
  match dyn_cast_Defined (ELFSymbol.sym this) with
  | Some d =>
      ELFSymbol.asDefinedSymbol this = Some this ∧
      ELFSymbol.getValue this = value d ∧
      ELFSymbol.getSize this = size d
  | None =>
      ELFSymbol.asDefinedSymbol this = None ∧
      ELFSymbol.getValue this = 0 ∧
      ELFSymbol.getSize this = 0
  end.
Proof.
  unfold ELFSymbol.asDefinedSymbol, ELFSymbol.getValue, ELFSymbol.getSize.
  by destruct (dyn_cast_Defined (ELFSymbol.sym this)).
Qed.

(** ** The section adapter: content *)

(** C6: [hasValidData] is false exactly when no content bytes back the
    section, and true exactly when some do. *)
Theorem hasValidData_iff_backed (sec : t) :
  (hasValidData sec = false ↔ backingBytes sec = []) ∧
  (hasValidData sec = true ↔ backingBytes sec ≠ []).
Proof.
  unfold hasValidData, backingBytes.
  destruct (isec sec) as [s|]; [|by split].
  destruct (content s) as [|b c]; simpl; by split.
Qed.

(** C7: on a section with empty content the loop hashes nothing, and a vector
    of hashes that is empty on entry is empty on return. *)
Theorem getSectionHash_empty_content
    (xxHash64 : list byte → Z) (oob : list byte → nat → nat → outcome (list byte))
    (this : N) (s : InputSectionBase) (sectionToIdx : list (t * Z)) :
  content s = [] →
  contentLoop xxHash64 oob (content s) (length (content s)) 0 [] = Ok [] ∧
  getSectionHash xxHash64 oob (mk this (Some s)) [] sectionToIdx = Ok [].
Proof.
  intros Hc. unfold getSectionHash. outcome_simpl. by rewrite Hc.
Qed.

Lemma getSectionHash_empty_content_witness :
  content Sample.isecBss = [] ∧
  contentLoop le_bytes oob_assert (content Sample.isecBss)
              (length (content Sample.isecBss)) 0 [] = Ok [] ∧
  getSectionHash le_bytes oob_assert (mk 13 (Some Sample.isecBss)) []
                 [(Sample.secF, 0)] = Ok [].
Proof.
  split; [reflexivity|].
  apply (getSectionHash_empty_content le_bytes oob_assert 13 Sample.isecBss).
  reflexivity.
Defined.

(** C9: the signature does not depend on the [sectionToIdx] argument. *)
Theorem getSectionHash_ignores_sectionToIdx
    (xxHash64 : list byte → Z) (oob : list byte → nat → nat → outcome (list byte))
    (sec : t) (hashes : list Z) (sectionToIdx1 sectionToIdx2 : list (t * Z)) :
  getSectionHash xxHash64 oob sec hashes sectionToIdx1
  = getSectionHash xxHash64 oob sec hashes sectionToIdx2.
Proof. reflexivity. Qed.

(** C1: a signature that [getSectionHash] produces is strictly increasing,
    and every hash collected, whether found in the vector on entry or pushed
    for a window, occurs in it exactly once (any other value not at all),
    however many windows have that hash. *)
Theorem getSectionHash_sorted_once
    (xxHash64 : list byte → Z) (oob : list byte → nat → nat → outcome (list byte))
    (sec : t) (hashes : list Z) (sectionToIdx : list (t * Z)) (sig : list Z) :
  getSectionHash xxHash64 oob sec hashes sectionToIdx = Ok sig →
  StronglySorted Z.lt sig ∧
  ∃ s pushed,
    isec sec = Some s ∧
    contentLoop xxHash64 oob (content s) (length (content s)) 0 [] = Ok pushed ∧
    ∀ h, occurrences h sig
         = if decide (h ∈ hashes ++ pushed) then 1%nat else 0%nat.
Proof.
  intros (s & pushed & Hs & Hloop & ->)%getSectionHash_Ok.
  split; [apply unique_sort_increasing|].
  exists s, pushed. repeat split; [done..|]. intros h.
  rewrite occurrences_increasing by apply unique_sort_increasing.
  repeat case_decide; rewrite ?elem_of_unique_sort in *; tauto.
Qed.

Lemma getSectionHash_sorted_once_witness :
  getSectionHash le_bytes (oob_read Sample.zeros) Sample.secG [] []
  = Ok [7; 1799; 460551; 117901063] ∧
  StronglySorted Z.lt [7; 1799; 460551; 117901063] ∧
  ∃ s pushed,
    isec Sample.secG = Some s ∧
    contentLoop le_bytes (oob_read Sample.zeros) (content s)
                (length (content s)) 0 [] = Ok pushed ∧
    ∀ h, occurrences h [7; 1799; 460551; 117901063]
         = if decide (h ∈ [] ++ pushed) then 1%nat else 0%nat.
Proof.
  split; [vm_compute; reflexivity|].
  apply (getSectionHash_sorted_once le_bytes (oob_read Sample.zeros)
           Sample.secG [] []).
  vm_compute; reflexivity.
Defined.

(** C10: the vector is not cleared: a signature that [getSectionHash]
    produces is the strictly increasing list whose elements are the hashes
    found in the vector on entry together with the hashes pushed for the
    content windows. *)
Theorem getSectionHash_keeps_existing
    (xxHash64 : list byte → Z) (oob : list byte → nat → nat → outcome (list byte))
    (sec : t) (hashes : list Z) (sectionToIdx : list (t * Z)) (sig : list Z) :
  getSectionHash xxHash64 oob sec hashes sectionToIdx = Ok sig →
  ∃ s pushed,
    isec sec = Some s ∧
    contentLoop xxHash64 oob (content s) (length (content s)) 0 [] = Ok pushed ∧
    sig = unique (sort (hashes ++ pushed)) ∧
    StronglySorted Z.lt sig ∧
    ∀ h, h ∈ sig ↔ h ∈ hashes ∨ h ∈ pushed.
Proof.
  intros (s & pushed & Hs & Hloop & ->)%getSectionHash_Ok.
  exists s, pushed. repeat split; [done..|apply unique_sort_increasing| |].
  - rewrite elem_of_unique_sort. apply elem_of_app.
  - rewrite elem_of_unique_sort. apply elem_of_app.
Qed.

Lemma getSectionHash_keeps_existing_witness :
  getSectionHash le_bytes (oob_read Sample.zeros) Sample.secF [600; 2; 600] []
  = Ok [2; 513; 600] ∧
  ∃ s pushed,
    isec Sample.secF = Some s ∧
    contentLoop le_bytes (oob_read Sample.zeros) (content s)
                (length (content s)) 0 [] = Ok pushed ∧
    [2; 513; 600] = unique (sort ([600; 2; 600] ++ pushed)) ∧
    StronglySorted Z.lt [2; 513; 600] ∧
    ∀ h, h ∈ [2; 513; 600] ↔ h ∈ [600; 2; 600] ∨ h ∈ pushed.
Proof.
  split; [vm_compute; reflexivity|].
  apply (getSectionHash_keeps_existing le_bytes (oob_read Sample.zeros)
           Sample.secF [600; 2; 600] []).
  vm_compute; reflexivity.
Defined.

(** ** The section adapter: windows at the end of the content *)

(** With assertions compiled in, a loop that still has an index to visit
    stops at the first window that does not fit in the content. *)
Lemma contentLoop_assert (xxHash64 : list byte → Z) (c : list byte)
    (n i : nat) (hashes : list Z) :
  (0 < n)%nat → (i + n)%nat = length c →
  contentLoop xxHash64 oob_assert c n i hashes = Err AssertFail.
Proof.
  revert i hashes. induction n as [|n IH]; intros i hashes Hn Hlen; [lia|].
  simpl. unfold slice, windowSize.
  destruct (decide (i + 4 ≤ length c)%nat) as [Hfit|Hout]; outcome_simpl.
  - apply IH; lia.
  - reflexivity.
Qed.

(** Without assertions, and with at least [windowSize - 1] readable bytes in
    memory behind the content, every window can be read and the method
    produces a signature. *)
Lemma contentLoop_read (xxHash64 : list byte → Z) (behind c : list byte)
    (n i : nat) (hashes : list Z) :
  (windowSize - 1 ≤ length behind)%nat → (i + n ≤ length c)%nat →
  ∃ hashes', contentLoop xxHash64 (oob_read behind) c n i hashes = Ok hashes'.
Proof.
  unfold windowSize. intros Hb. revert i hashes.
  induction n as [|n IH]; intros i hashes Hlen; simpl; [by eexists|].
  unfold slice, oob_read, windowSize.
  destruct (decide (i + 4 ≤ length c)%nat) as [Hfit|Hout]; outcome_simpl.
  - apply IH. lia.
  - rewrite decide_True by (rewrite length_app; simpl in Hb; lia).
    apply IH. lia.
Qed.

Lemma getSectionHash_read (xxHash64 : list byte → Z) (behind : list byte)
    (this : N) (s : InputSectionBase) (hashes : list Z)
    (sectionToIdx : list (t * Z)) :
  (windowSize - 1 ≤ length behind)%nat →
  ∃ sig, getSectionHash xxHash64 (oob_read behind) (mk this (Some s)) hashes
                        sectionToIdx = Ok sig.
Proof.
  intros Hb. unfold getSectionHash. outcome_simpl.
  destruct (contentLoop_read xxHash64 behind (content s) (length (content s))
              0 hashes Hb) as [hashes' ->]; [simpl; lia|].
  by eexists.
Qed.

(** C2: on a section with non-empty content the window at the last index
    does not fit in the content: where [ArrayRef::slice] asserts its bounds
    [getSectionHash] fails, and it produces a signature only where the slice
    outside the content yields bytes. *)
Theorem getSectionHash_nonempty_out_of_bounds
    (xxHash64 : list byte → Z) (this : N) (s : InputSectionBase)
    (hashes : list Z) (sectionToIdx : list (t * Z)) :
  content s ≠ [] →
  getSectionHash xxHash64 oob_assert (mk this (Some s)) hashes sectionToIdx
  = Err AssertFail ∧
  ∀ oob sig,
    getSectionHash xxHash64 oob (mk this (Some s)) hashes sectionToIdx = Ok sig →
    ∃ w, oob (content s) (length (content s) - 1)%nat windowSize = Ok w.
Proof.
  intros Hc.
  assert (0 < length (content s))%nat as Hlen
    by (destruct (content s); [done|simpl; lia]).
  split.
  - unfold getSectionHash. outcome_simpl.
    by rewrite contentLoop_assert by lia.
  - intros oob sig (s' & pushed & [= <-] & Hloop & _)%getSectionHash_Ok.
    apply contentLoop_Ok in Hloop as (p & _ & _ & Hj).
    destruct (Hj (length (content s) - 1)%nat ltac:(lia)) as (w & Hw & _).
    exists w. revert Hw. unfold slice, windowSize. simpl.
    case_decide; [lia|done].
Qed.

Lemma getSectionHash_nonempty_out_of_bounds_witness :
  content Sample.isecK ≠ [] ∧
  getSectionHash le_bytes oob_assert (mk 12 (Some Sample.isecK)) [] []
  = Err AssertFail ∧
  ∀ oob sig,
    getSectionHash le_bytes oob (mk 12 (Some Sample.isecK)) [] [] = Ok sig →
    ∃ w, oob (content Sample.isecK)
             (length (content Sample.isecK) - 1)%nat windowSize = Ok w.
Proof.
  split; [discriminate|].
  apply (getSectionHash_nonempty_out_of_bounds le_bytes 12 Sample.isecK [] []).
  discriminate.
Defined.

(** C3: on content that is not empty and shorter than [windowSize] every
    window the loop slices, one at each index, reaches past the content, and
    none is a partial window.  Where [ArrayRef::slice] asserts its bounds the
    loop stops at index 0 with no hash pushed; where the slices past the
    content yield bytes, a loop that runs to its end has pushed one hash for
    every content byte, not at most one. *)
Theorem contentLoop_short_content_out_of_bounds
    (xxHash64 : list byte → Z) (c : list byte) (hashes : list Z) :
  (0 < length c < windowSize)%nat →
  contentLoop xxHash64 oob_assert c (length c) 0 hashes = Err AssertFail ∧
  ∀ oob,
    (∀ i, (i < length c)%nat →
          slice oob c i windowSize = oob c i windowSize) ∧
    (∀ hashes',
       contentLoop xxHash64 oob c (length c) 0 hashes = Ok hashes' →
       length hashes' = (length hashes + length c)%nat).
Proof.
  unfold windowSize. intros [Hpos Hshort]. split.
  - apply contentLoop_assert; lia.
  - intros oob. split.
    + intros i Hi. unfold slice. by rewrite decide_False by lia.
    + intros hashes' (pushed & -> & Hlen & _)%contentLoop_Ok.
      rewrite length_app. lia.
Qed.

Lemma contentLoop_short_content_out_of_bounds_witness :
  (0 < length [x01; x02] < windowSize)%nat ∧
  contentLoop le_bytes oob_assert [x01; x02] (length [x01; x02]) 0 []
  = Err AssertFail ∧
  ∀ oob,
    (∀ i, (i < length [x01; x02])%nat →
          slice oob [x01; x02] i windowSize = oob [x01; x02] i windowSize) ∧
    (∀ hashes',
       contentLoop le_bytes oob [x01; x02] (length [x01; x02]) 0 [] = Ok hashes' →
       length hashes' = (length (@nil Z) + length [x01; x02])%nat).
Proof.
  split; [unfold windowSize; simpl; lia|].
  apply (contentLoop_short_content_out_of_bounds le_bytes [x01; x02] []).
  unfold windowSize; simpl; lia.
Defined.

(** ** The section adapter: symbols *)

Lemma fillCache_spec (syms : list Symbol) (h : list ELFSymbol.t) (c : list nat) :
  fillCache syms (h, c)
  = (h ++ (ELFSymbol.mk <$> syms), c ++ seq (length h) (length syms)).
Proof.
  unfold fillCache. revert h c. induction syms as [|y syms IH]; intros h c.
  - simpl. by rewrite !app_nil_r.
  - simpl. rewrite IH, length_app. simpl.
    rewrite <- !app_assoc, Nat.add_1_r. reflexivity.
Qed.

(** The wrappers allocated by one fill are found again at their addresses. *)
Lemma mapM_heap_seq (h ws : list ELFSymbol.t) (h' : list ELFSymbol.t) :
  mapM (M := option) (λ p : nat, (h ++ ws ++ h') !! p)
       (seq (length h) (length ws)) = Some ws.
Proof.
  revert h. induction ws as [|w ws IH]; intros h; [done|].
  simpl. rewrite list_lookup_middle by done. simpl.
  specialize (IH (h ++ [w])).
  rewrite length_app, Nat.add_1_r, <- app_assoc in IH. simpl in IH.
  by rewrite IH.
Qed.

(** The state after the first access of a section to its symbols. *)
Lemma getSymbols_fill (sec : t) (s : InputSectionBase) (st : AdapterState) :
  isec sec = Some s → cacheOf st (this sec) = [] →
  getSymbols sec st
  = let c := seq (length (heap st)) (length (fileSymbols (file s))) in
    Ok (mkSymbolsRef (length c),
        mkState (heap st ++ (ELFSymbol.mk <$> fileSymbols (file s)))
                (<[this sec := c]> (symbolCache st)) c).
Proof.
  intros Hs Hc. unfold getSymbols. rewrite Hc, Hs.
  rewrite bool_decide_eq_true_2 by done. outcome_simpl.
  rewrite fillCache_spec. simpl. unfold cacheOf. simpl.
  by rewrite lookup_insert_eq.
Qed.

(** C4, as stated: [.text.f] owns the symbol [f] alone, and [getSymbols]
    returns wrappers of [f], of [g], which [.text.g] owns, and of the
    undefined symbol [h]. *)
Lemma getSymbols_returns_symbols_of_other_sections :
  ownedSymbols Sample.isecF = [Sample.f] ∧
  getSymbols Sample.secF initialState = Ok (mkSymbolsRef 3, Sample.stF) ∧
  readSymbols Sample.stF (mkSymbolsRef 3)
  = Ok [Sample.f; Sample.g; Sample.h] ∧
  readSymbols Sample.stF (mkSymbolsRef 3) ≠ Ok (ownedSymbols Sample.isecF).
Proof.
  do 3 (split; [vm_compute; reflexivity|]).
  vm_compute. discriminate.
Qed.

(** C4, amended: on the first access of a section to its symbols
    [getSymbols] returns one wrapper for every symbol of the object file the
    section comes from, in the order of the file's symbol table, and a later
    access returns the same wrappers. *)
Theorem getSymbols_symbols_of_file (sec : t) (s : InputSectionBase)
    (st : AdapterState) :
  isec sec = Some s → cacheOf st (this sec) = [] →
  ∃ r st',
    getSymbols sec st = Ok (r, st') ∧
    readSymbols st' r = Ok (fileSymbols (file s)) ∧
    getSymbols sec st' = Ok (r, st').
Proof.
  intros Hs Hc. rewrite (getSymbols_fill sec s st Hs Hc). simpl.
  eexists _, _. split; [reflexivity|]. split.
  - unfold readSymbols, readRef. simpl.
    rewrite decide_True by done. outcome_simpl.
    rewrite firstn_all.
    pose proof (mapM_heap_seq (heap st) (ELFSymbol.mk <$> fileSymbols (file s)) [])
      as Hm.
    rewrite app_nil_r, length_fmap in Hm. rewrite Hm.
    f_equal. rewrite <- list_fmap_compose. apply list_fmap_id.
  - destruct (fileSymbols (file s)) as [|y syms] eqn:Hsyms.
    + rewrite (getSymbols_fill sec s _ Hs).
      * simpl. rewrite Hsyms. simpl.
        by rewrite app_nil_r, insert_insert_eq.
      * unfold cacheOf. simpl. by rewrite lookup_insert_eq.
    + unfold getSymbols, cacheOf. simpl.
      rewrite lookup_insert_eq. outcome_simpl.
      by rewrite lookup_insert_eq.
Qed.

Lemma getSymbols_symbols_of_file_witness :
  isec Sample.secF = Some Sample.isecF ∧
  cacheOf initialState (this Sample.secF) = [] ∧
  ∃ r st',
    getSymbols Sample.secF initialState = Ok (r, st') ∧
    readSymbols st' r = Ok (fileSymbols (file Sample.isecF)) ∧
    getSymbols Sample.secF st' = Ok (r, st').
Proof.
  split; [reflexivity|]. split; [reflexivity|].
  apply (getSymbols_symbols_of_file Sample.secF Sample.isecF initialState);
    reflexivity.
Defined.

(** C5, as stated: the array that [getSymbols] returned for [.text.f] shows
    the symbols of another object file once [getSymbols] has been called on
    [.data.k]: the call has overwritten the static vector behind it. *)
Lemma getSymbols_overwrites_static_result :
  this Sample.secF ≠ this Sample.secK ∧
  getSymbols Sample.secF initialState = Ok (mkSymbolsRef 3, Sample.stF) ∧
  getSymbols Sample.secK Sample.stF = Ok (mkSymbolsRef 3, Sample.stFK) ∧
  readSymbols Sample.stF (mkSymbolsRef 3)
  = Ok [Sample.f; Sample.g; Sample.h] ∧
  readSymbols Sample.stFK (mkSymbolsRef 3)
  = Ok [Sample.k; Sample.m; Sample.n] ∧
  result Sample.stF ≠ result Sample.stFK.
Proof.
  split; [discriminate|].
  do 4 (split; [vm_compute; reflexivity|]).
  discriminate.
Qed.

(** C5, amended: besides the memoized list of each section the adapter keeps
    one static vector shared by all sections.  A call of [getSymbols] on a
    section stores that section's memoized list in the static vector and
    returns an array over it; the memoized list of every other section and
    every wrapper allocated before stay as they were. *)
Theorem getSymbols_frame (secA secB : t) (st st' : AdapterState)
    (r : SymbolsRef) :
  this secA ≠ this secB →
  getSymbols secB st = Ok (r, st') →
  cacheOf st' (this secA) = cacheOf st (this secA) ∧
  (∀ p w, heap st !! p = Some w → heap st' !! p = Some w) ∧
  result st' = cacheOf st' (this secB) ∧
  readRef st' r = Ok (cacheOf st' (this secB)).
Proof.
  intros Hne. unfold getSymbols.
  destruct (bool_decide (cacheOf st (this secB) = [])) eqn:Hc.
  - apply bool_decide_eq_true_1 in Hc.
    destruct (isec secB) as [s|]; outcome_simpl; [|discriminate].
    rewrite Hc, fillCache_spec. simpl.
    unfold cacheOf in *. simpl. rewrite lookup_insert_eq. simpl.
    intros [= <- <-]. simpl. rewrite lookup_insert_eq, lookup_insert_ne by done.
    repeat split; [|unfold readRef; simpl].
    + intros p w Hp. by apply lookup_app_l_Some.
    + rewrite decide_True by done. by rewrite firstn_all.
  - outcome_simpl. intros [= <- <-]. simpl.
    repeat split; [done|unfold readRef; simpl].
    rewrite decide_True by done. by rewrite firstn_all.
Qed.

Lemma getSymbols_frame_witness :
  this Sample.secF ≠ this Sample.secK ∧
  getSymbols Sample.secK Sample.stF = Ok (mkSymbolsRef 3, Sample.stFK) ∧
  cacheOf Sample.stFK (this Sample.secF) = cacheOf Sample.stF (this Sample.secF) ∧
  (∀ p w, heap Sample.stF !! p = Some w → heap Sample.stFK !! p = Some w) ∧
  result Sample.stFK = cacheOf Sample.stFK (this Sample.secK) ∧
  readRef Sample.stFK (mkSymbolsRef 3) = Ok (cacheOf Sample.stFK (this Sample.secK)).
Proof.
  split; [discriminate|]. split; [vm_compute; reflexivity|].
  apply (getSymbols_frame Sample.secF Sample.secK Sample.stF Sample.stFK
           (mkSymbolsRef 3)).
  - discriminate.
  - vm_compute; reflexivity.
Defined.

(** * Further properties of the adapter *)

(** ** Strictly increasing vectors *)

Lemma increasing_NoDup (l : list Z) : StronglySorted Z.lt l → NoDup l.
Proof.
  induction 1 as [|x l Hs IH Hx]; constructor; [|done].
  intros Hin. rewrite Forall_forall in Hx. specialize (Hx _ Hin). lia.
Qed.

(** A strictly increasing vector is determined by its elements. *)
Lemma increasing_ext (l1 l2 : list Z) :
  StronglySorted Z.lt l1 → StronglySorted Z.lt l2 →
  (∀ h, h ∈ l1 ↔ h ∈ l2) → l1 = l2.
Proof.
  intros H1 H2 Hel.
  apply (StronglySorted_unique_strong Z.lt); [intros; lia|done..|].
  apply NoDup_Permutation; auto using increasing_NoDup.
Qed.

Lemma unique_sort_ext (l1 l2 : list Z) :
  (∀ h, h ∈ l1 ↔ h ∈ l2) → unique (sort l1) = unique (sort l2).
Proof.
  intros Hel. apply increasing_ext; [apply unique_sort_increasing..|].
  intros h. by rewrite !elem_of_unique_sort.
Qed.

Lemma unique_sort_fixed (l : list Z) :
  StronglySorted Z.lt l → unique (sort l) = l.
Proof.
  intros Hl. apply increasing_ext; [apply unique_sort_increasing|done|].
  intros h. apply elem_of_unique_sort.
Qed.

Lemma unique_from_sublist (p : Z) (l : list Z) : unique_from p l `sublist_of` l.
Proof.
  revert p. induction l as [|y l IH]; intros p; simpl; [constructor|].
  case_decide; [apply sublist_cons|apply sublist_skip]; apply IH.
Qed.

Lemma unique_sublist (l : list Z) : unique l `sublist_of` l.
Proof.
  destruct l as [|x l]; simpl; [constructor|].
  apply sublist_skip, unique_from_sublist.
Qed.

(** ** The signature *)

Section Signature.

Variable xxHash64 : list byte → Z.
Variable oob : list byte → nat → nat → outcome (list byte).

(** X2: a signature has at most as many entries as the vector held on entry
    plus the number of content bytes. *)
Theorem getSectionHash_length_bound (sec : t) (hashes sig : list Z)
    (sectionToIdx : list (t * Z)) :
  getSectionHash xxHash64 oob sec hashes sectionToIdx = Ok sig →
  (length sig ≤ length hashes + length (backingBytes sec))%nat.
Proof.
  intros (s & pushed & Hs & Hloop & ->)%getSectionHash_Ok.
  unfold backingBytes. rewrite Hs.
  apply contentLoop_Ok in Hloop as (p & Hp & Hlen & _). simpl in Hp. subst p.
  etransitivity; [apply sublist_length, unique_sublist|].
  unfold sort. by rewrite merge_sort_Permutation, length_app, Hlen.
Qed.

(** X3: feeding a signature back into [getSectionHash] of the same section
    returns it unchanged. *)
Theorem getSectionHash_idempotent (sec : t) (hashes sig : list Z)
    (sectionToIdx sectionToIdx' : list (t * Z)) :
  getSectionHash xxHash64 oob sec hashes sectionToIdx = Ok sig →
  getSectionHash xxHash64 oob sec sig sectionToIdx' = Ok sig.
Proof.
  intros (s & pushed & Hs & Hloop & ->)%getSectionHash_Ok.
  unfold getSectionHash. rewrite Hs. outcome_simpl.
  rewrite contentLoop_app, Hloop. outcome_simpl. f_equal.
  apply increasing_ext; [apply unique_sort_increasing..|].
  intros h. rewrite !elem_of_unique_sort, !elem_of_app, elem_of_unique_sort.
  rewrite elem_of_app. tauto.
Qed.

(** X4: of the vector passed in only the set of its elements matters: two
    calls on the same section, through any two adapters that wrap it, with
    vectors that hold the same hashes in any order and any number of times,
    have the same outcome. *)
Theorem getSectionHash_hash_set (sec1 sec2 : t) (s : InputSectionBase)
    (hashes1 hashes2 : list Z) (sectionToIdx1 sectionToIdx2 : list (t * Z)) :
  isec sec1 = Some s → isec sec2 = Some s →
  (∀ h, h ∈ hashes1 ↔ h ∈ hashes2) →
  getSectionHash xxHash64 oob sec1 hashes1 sectionToIdx1
  = getSectionHash xxHash64 oob sec2 hashes2 sectionToIdx2.
Proof.
  intros Hs1 Hs2 Hel. unfold getSectionHash. rewrite Hs1, Hs2.
  outcome_simpl.
  rewrite (contentLoop_app _ _ _ _ _ hashes1), (contentLoop_app _ _ _ _ _ hashes2).
  destruct (contentLoop _ _ _ _ _ []) as [pushed|e]; outcome_simpl; [|done].
  f_equal. apply unique_sort_ext. intros h. rewrite !elem_of_app, Hel. tauto.
Qed.

(** X5: the hash of every window of [windowSize] bytes that lies within the
    content is an entry of the signature, whatever lies behind the content. *)
Theorem getSectionHash_full_windows (sec : t) (s : InputSectionBase)
    (hashes sig : list Z) (sectionToIdx : list (t * Z)) (i : nat) :
  isec sec = Some s →
  getSectionHash xxHash64 oob sec hashes sectionToIdx = Ok sig →
  (i + windowSize ≤ length (content s))%nat →
  xxHash64 (take windowSize (drop i (content s))) ∈ sig.
Proof.
  intros Hs (s' & pushed & Hs' & Hloop & ->)%getSectionHash_Ok Hi.
  rewrite Hs in Hs'. injection Hs' as <-.
  apply contentLoop_Ok in Hloop as (p & Hp & _ & Hj). simpl in Hp. subst p.
  destruct (Hj i) as (w & Hw & Hl); [unfold windowSize in Hi; lia|].
  simpl in Hw. unfold slice in Hw. rewrite decide_True in Hw by done.
  injection Hw as <-.
  apply elem_of_unique_sort, elem_of_app. right.
  by apply list_elem_of_lookup_2 in Hl.
Qed.

(** X6: on a section without content [getSectionHash] has nothing to add:
    a vector that is strictly increasing on entry comes back unchanged. *)
Theorem getSectionHash_empty_content_normalises (this : N)
    (s : InputSectionBase) (hashes : list Z) (sectionToIdx : list (t * Z)) :
  content s = [] → StronglySorted Z.lt hashes →
  getSectionHash xxHash64 oob (mk this (Some s)) hashes sectionToIdx = Ok hashes.
Proof.
  intros Hc Hh. unfold getSectionHash. outcome_simpl. rewrite Hc. simpl.
  by rewrite unique_sort_fixed.
Qed.

End Signature.

(** ** The plain accessors *)

Lemma land_SHF_EXECINSTR (f : Z) :
  negb (Z.land f SHF_EXECINSTR =? 0) = Z.testbit f 2.
Proof.
  unfold SHF_EXECINSTR. change 4 with (2 ^ 2).
  destruct (Z.testbit f 2) eqn:Hbit.
  - apply negb_true_iff, Z.eqb_neq. intros H0.
    assert (Z.testbit (Z.land f (2 ^ 2)) 2 = true) as Hl
      by (by rewrite Z.land_spec, Hbit, Z.pow2_bits_true).
    rewrite H0, Z.bits_0 in Hl. discriminate.
  - apply negb_false_iff, Z.eqb_eq, Z.bits_inj'. intros n Hn.
    rewrite Z.land_spec, Z.bits_0, Z.pow2_bits_eqb by lia.
    destruct (Z.eqb_spec 2 n) as [<-|]; [by rewrite Hbit|apply andb_false_r].
Qed.

(** X7: [isCodeSection] reads bit 2 of the section flags, the bit of
    [SHF_EXECINSTR], and no other bit. *)
Theorem isCodeSection_is_bit_2 (this : N) (s : InputSectionBase) :
  isCodeSection (mk this (Some s)) = Ok (Z.testbit (flags s) 2).
Proof.
  unfold isCodeSection. outcome_simpl. by rewrite land_SHF_EXECINSTR.
Qed.

(** X8: when [hasValidData] answers true the section pointer is not null,
    so the other accessors succeed, and [getSectionData] is not empty. *)
Theorem hasValidData_guards_accessors (sec : t) :
  hasValidData sec = true →
  ∃ s, isec sec = Some s ∧
       getName sec = Ok (name s) ∧
       getSize sec = Ok (secSize s) ∧
       isCodeSection sec = Ok (Z.testbit (flags s) 2) ∧
       getSectionData sec = Ok (content s) ∧
       content s ≠ [].
Proof.
  unfold hasValidData, getName, getSize, isCodeSection, getSectionData.
  destruct (isec sec) as [s|]; [|discriminate]. intros Hv. exists s.
  outcome_simpl. rewrite land_SHF_EXECINSTR. repeat split.
  intros Hc. rewrite Hc in Hv. discriminate.
Qed.

Lemma hasValidData_guards_accessors_witness :
  hasValidData Sample.secF = true ∧
  ∃ s, isec Sample.secF = Some s ∧
       getName Sample.secF = Ok (name s) ∧
       getSize Sample.secF = Ok (secSize s) ∧
       isCodeSection Sample.secF = Ok (Z.testbit (flags s) 2) ∧
       getSectionData Sample.secF = Ok (content s) ∧
       content s ≠ [].
Proof.
  split; [reflexivity|].
  apply (hasValidData_guards_accessors Sample.secF). reflexivity.
Defined.

(** X9: only [hasValidData] checks the section pointer.  On an [ELFSection]
    built over a null pointer it answers false, while every other accessor,
    and [getSymbols] on its first access, dereferences the null pointer. *)
Theorem null_section_accessors (sec : t) :
  isec sec = None →
  hasValidData sec = false ∧
  getName sec = Err NullDeref ∧
  getSize sec = Err NullDeref ∧
  isCodeSection sec = Err NullDeref ∧
  getSectionData sec = Err NullDeref ∧
  (∀ xxHash64 oob hashes sectionToIdx,
     getSectionHash xxHash64 oob sec hashes sectionToIdx = Err NullDeref) ∧
  (∀ st, cacheOf st (this sec) = [] → getSymbols sec st = Err NullDeref).
Proof.
  intros Hn.
  unfold hasValidData, getName, getSize, isCodeSection, getSectionData,
    getSectionHash, getSymbols.
  rewrite Hn. repeat split. intros st Hc.
  by rewrite bool_decide_eq_true_2 by done.
Qed.

Lemma null_section_accessors_witness :
  isec Sample2.secNull = None ∧
  hasValidData Sample2.secNull = false ∧
  getName Sample2.secNull = Err NullDeref ∧
  getSize Sample2.secNull = Err NullDeref ∧
  isCodeSection Sample2.secNull = Err NullDeref ∧
  getSectionData Sample2.secNull = Err NullDeref ∧
  (∀ xxHash64 oob hashes sectionToIdx,
     getSectionHash xxHash64 oob Sample2.secNull hashes sectionToIdx
     = Err NullDeref) ∧
  (∀ st, cacheOf st (this Sample2.secNull) = [] →
         getSymbols Sample2.secNull st = Err NullDeref).
Proof.
  split; [reflexivity|]. apply (null_section_accessors Sample2.secNull).
  reflexivity.
Defined.

(** X10: a symbol wrapper that reports a value or a size other than 0 wraps
    a defined symbol: [asDefinedSymbol] returns the wrapper. *)
Theorem ELFSymbol_nonzero_is_defined (w : ELFSymbol.t) :
  ELFSymbol.getValue w ≠ 0 ∨ ELFSymbol.getSize w ≠ 0 →
  ELFSymbol.asDefinedSymbol w = Some w.
Proof.
  unfold ELFSymbol.getValue, ELFSymbol.getSize, ELFSymbol.asDefinedSymbol.
  destruct (dyn_cast_Defined (ELFSymbol.sym w)); [done|]. intros [[]|[]]; done.
Qed.

Lemma ELFSymbol_nonzero_is_defined_witness :
  (ELFSymbol.getValue (ELFSymbol.mk Sample.g) ≠ 0 ∨
   ELFSymbol.getSize (ELFSymbol.mk Sample.g) ≠ 0) ∧
  ELFSymbol.asDefinedSymbol (ELFSymbol.mk Sample.g)
  = Some (ELFSymbol.mk Sample.g).
Proof.
  split; [left; discriminate|].
  apply (ELFSymbol_nonzero_is_defined (ELFSymbol.mk Sample.g)).
  left; discriminate.
Defined.

(** ** Witnesses for the signature *)

Lemma getSectionHash_length_bound_witness :
  getSectionHash le_bytes (oob_read Sample.zeros) Sample.secG [7; 9] []
  = Ok [7; 9; 1799; 460551; 117901063] ∧
  (length [7; 9; 1799; 460551; 117901063]%Z
   ≤ length [7; 9]%Z + length (backingBytes Sample.secG))%nat.
Proof.
  split; [vm_compute; reflexivity|].
  apply (getSectionHash_length_bound le_bytes (oob_read Sample.zeros)
           Sample.secG [7; 9] _ []).
  vm_compute; reflexivity.
Defined.

Lemma getSectionHash_idempotent_witness :
  getSectionHash le_bytes (oob_read Sample.zeros) Sample.secF [600; 2; 600] []
  = Ok [2; 513; 600] ∧
  getSectionHash le_bytes (oob_read Sample.zeros) Sample.secF [2; 513; 600]
                 [(Sample.secG, 1)] = Ok [2; 513; 600].
Proof.
  split; [vm_compute; reflexivity|].
  apply (getSectionHash_idempotent le_bytes (oob_read Sample.zeros)
           Sample.secF [600; 2; 600] _ []).
  vm_compute; reflexivity.
Defined.

Lemma getSectionHash_hash_set_witness :
  isec Sample.secG = Some Sample.isecG ∧
  isec (mk 21 (Some Sample.isecG)) = Some Sample.isecG ∧
  (∀ h, h ∈ [1799; 3; 1799] ↔ h ∈ [3; 1799]) ∧
  getSectionHash le_bytes (oob_read Sample.zeros) Sample.secG [1799; 3; 1799] []
  = getSectionHash le_bytes (oob_read Sample.zeros) (mk 21 (Some Sample.isecG))
                   [3; 1799] [(Sample.secF, 4)].
Proof.
  assert (∀ h : Z, h ∈ [1799; 3; 1799] ↔ h ∈ [3; 1799]) as Hel
    by (intros h; rewrite !elem_of_cons; tauto).
  do 2 (split; [reflexivity|]). split; [exact Hel|].
  by apply (getSectionHash_hash_set le_bytes (oob_read Sample.zeros)
              Sample.secG (mk 21 (Some Sample.isecG)) Sample.isecG
              [1799; 3; 1799] [3; 1799]).
Defined.

Lemma getSectionHash_full_windows_witness :
  isec Sample.secG = Some Sample.isecG ∧
  getSectionHash le_bytes (oob_read Sample.zeros) Sample.secG [] []
  = Ok [7; 1799; 460551; 117901063] ∧
  (2 + windowSize ≤ length (content Sample.isecG))%nat ∧
  le_bytes (take windowSize (drop 2 (content Sample.isecG)))
  ∈ [7; 1799; 460551; 117901063].
Proof.
  split; [reflexivity|]. split; [vm_compute; reflexivity|].
  split; [unfold windowSize; simpl; lia|].
  apply (getSectionHash_full_windows le_bytes (oob_read Sample.zeros)
           Sample.secG Sample.isecG [] _ [] 2).
  - reflexivity.
  - vm_compute; reflexivity.
  - unfold windowSize; simpl; lia.
Defined.

Lemma getSectionHash_empty_content_normalises_witness :
  content Sample.isecBss = [] ∧
  StronglySorted Z.lt [1; 4; 9] ∧
  getSectionHash le_bytes oob_assert (mk 13 (Some Sample.isecBss)) [1; 4; 9] []
  = Ok [1; 4; 9].
Proof.
  assert (StronglySorted Z.lt [1; 4; 9]) as Hs
    by (repeat constructor; lia).
  split; [reflexivity|]. split; [exact Hs|].
  by apply (getSectionHash_empty_content_normalises le_bytes oob_assert 13
              Sample.isecBss [1; 4; 9] []).
Defined.

(** ** The symbols of a section, continued *)

(** A later access: the memoized list is stored in the static vector; no
    wrapper is allocated and the section pointer is not used. *)
Lemma getSymbols_memo (sec : t) (st : AdapterState) :
  cacheOf st (this sec) ≠ [] →
  getSymbols sec st
  = Ok (mkSymbolsRef (length (cacheOf st (this sec))),
        mkState (heap st) (symbolCache st) (cacheOf st (this sec))).
Proof.
  intros Hc. unfold getSymbols. by rewrite bool_decide_eq_false_2 by done.
Qed.

Lemma getSymbols_cache_other (secA secB : t) (st st' : AdapterState)
    (r : SymbolsRef) :
  this secA ≠ this secB → getSymbols secB st = Ok (r, st') →
  cacheOf st' (this secA) = cacheOf st (this secA).
Proof.
  intros Hne. destruct (decide (cacheOf st (this secB) = [])) as [Hc|Hc].
  - unfold getSymbols. rewrite bool_decide_eq_true_2 by done.
    destruct (isec secB) as [s|]; outcome_simpl; [|discriminate].
    rewrite Hc, fillCache_spec. simpl. intros [= <- <-].
    unfold cacheOf. simpl. by rewrite lookup_insert_ne.
  - rewrite getSymbols_memo by done. by intros [= <- <-].
Qed.

Lemma readSymbols_valid (st : AdapterState) (r : SymbolsRef) :
  refLength r = length (result st) →
  Forall (λ p, p < length (heap st))%nat (result st) →
  ∃ syms, readSymbols st r = Ok syms ∧ length syms = refLength r.
Proof.
  intros Hlen Hv. unfold readSymbols, readRef.
  rewrite decide_True by lia. outcome_simpl. rewrite Hlen, firstn_all.
  destruct (mapM (M := option) (λ p : nat, heap st !! p) (result st))
    as [ws|] eqn:Hm.
  - eexists. split; [done|].
    rewrite length_fmap. symmetry. by eapply length_mapM.
  - assert (is_Some (mapM (M := option) (λ p : nat, heap st !! p) (result st)))
      as [? Hs]; [|congruence].
    apply mapM_is_Some_2. eapply Forall_impl; [exact Hv|].
    intros p Hp. by apply lookup_lt_is_Some_2.
Qed.

(** X11: [getSymbols] keeps the adapter free of dangling pointers: from a
    state in which every pointer kept is the address of a wrapper it leads
    to such a state again, and the array it returns can be read, one symbol
    for each of its elements. *)
Theorem getSymbols_keeps_pointers_valid (sec : t) (st st' : AdapterState)
    (r : SymbolsRef) :
  wfState st → getSymbols sec st = Ok (r, st') →
  wfState st' ∧
  ∃ syms, readSymbols st' r = Ok syms ∧ length syms = refLength r.
Proof.
  intros [Hcache Hres] Hget.
  assert (wfState st' ∧ refLength r = length (result st')) as [Hwf Hlen].
  { destruct (decide (cacheOf st (this sec) = [])) as [Hc|Hc].
    - revert Hget. unfold getSymbols. rewrite bool_decide_eq_true_2 by done.
      destruct (isec sec) as [s|]; outcome_simpl; [|discriminate].
      rewrite Hc, fillCache_spec. simpl. unfold cacheOf. simpl.
      rewrite lookup_insert_eq. simpl. intros [= <- <-].
      split; [|done]. unfold wfState. simpl. rewrite length_app.
      assert (Forall (λ p, p < length (heap st)
                             + length (ELFSymbol.mk <$> fileSymbols (file s)))%nat
                (seq (length (heap st)) (length (fileSymbols (file s)))))
        as Hseq by (rewrite length_fmap; apply Forall_seq; intros; lia).
      split; [|done]. intros k c.
      destruct (decide (this sec = k)) as [<-|Hk].
      + rewrite lookup_insert_eq. by intros [= <-].
      + rewrite lookup_insert_ne by done. intros Hk'%Hcache.
        eapply Forall_impl; [exact Hk'|]. intros; simpl in *; lia.
    - rewrite getSymbols_memo in Hget by done. injection Hget as <- <-.
      split; [|done]. split; [done|]. simpl. unfold cacheOf.
      destruct (symbolCache st !! this sec) as [c|] eqn:Hk; simpl; [|done].
      by eapply Hcache. }
  split; [done|]. apply readSymbols_valid; [done|apply Hwf].
Qed.

Lemma getSymbols_keeps_pointers_valid_witness :
  wfState Sample.stF ∧
  getSymbols Sample.secK Sample.stF = Ok (mkSymbolsRef 3, Sample.stFK) ∧
  wfState Sample.stFK ∧
  ∃ syms, readSymbols Sample.stFK (mkSymbolsRef 3) = Ok syms ∧
          length syms = refLength (mkSymbolsRef 3).
Proof.
  assert (wfState Sample.stF) as Hwf.
  { split.
    - intros k c. unfold Sample.stF. simpl.
      intros [_ <-]%lookup_singleton_Some. repeat constructor.
    - repeat constructor. }
  split; [exact Hwf|]. split; [vm_compute; reflexivity|].
  apply (getSymbols_keeps_pointers_valid Sample.secK Sample.stF Sample.stFK
           (mkSymbolsRef 3) Hwf).
  vm_compute; reflexivity.
Defined.

Lemma getSymbols_heap_grows (sec : t) (st st' : AdapterState) (r : SymbolsRef) :
  getSymbols sec st = Ok (r, st') → ∃ ws, heap st' = heap st ++ ws.
Proof.
  destruct (decide (cacheOf st (this sec) = [])) as [Hc|Hc].
  - unfold getSymbols. rewrite bool_decide_eq_true_2 by done.
    destruct (isec sec) as [s|]; outcome_simpl; [|discriminate].
    rewrite Hc, fillCache_spec. simpl. intros [= <- <-]. by eexists.
  - rewrite getSymbols_memo by done. intros [= <- <-]. exists [].
    simpl. by rewrite app_nil_r.
Qed.

(** X12: the memoized wrappers of a section outlive calls on other
    sections.  After a first access of a section with symbols and a call of
    [getSymbols] on another section, a second access of the first section
    allocates nothing and returns an array of the same wrappers, which wrap
    the symbols of the section's file. *)
Theorem getSymbols_memo_survives_other_calls (secA secB : t)
    (sA : InputSectionBase) (st st1 st2 : AdapterState) (rA rB : SymbolsRef) :
  this secA ≠ this secB →
  isec secA = Some sA → fileSymbols (file sA) ≠ [] →
  cacheOf st (this secA) = [] →
  getSymbols secA st = Ok (rA, st1) →
  getSymbols secB st1 = Ok (rB, st2) →
  ∃ st3,
    getSymbols secA st2 = Ok (rA, st3) ∧
    heap st3 = heap st2 ∧
    readRef st3 rA = readRef st1 rA ∧
    readSymbols st3 rA = Ok (fileSymbols (file sA)).
Proof.
  intros Hne HsA Hsyms Hc HA HB.
  rewrite (getSymbols_fill secA sA st HsA Hc) in HA. simpl in HA.
  injection HA as <- <-.
  pose proof (getSymbols_cache_other secA secB _ _ _ Hne HB) as Hsame.
  destruct (getSymbols_heap_grows _ _ _ _ HB) as [ws Hheap]. simpl in Hheap.
  unfold cacheOf at 2 in Hsame. simpl in Hsame.
  rewrite lookup_insert_eq in Hsame. simpl in Hsame.
  assert (cacheOf st2 (this secA) ≠ []) as Hc2.
  { rewrite Hsame. destruct (fileSymbols (file sA)); [done|discriminate]. }
  rewrite (getSymbols_memo secA st2 Hc2), Hsame.
  eexists. split; [reflexivity|]. split; [reflexivity|].
  unfold readSymbols, readRef. simpl.
  rewrite decide_True by done. outcome_simpl. rewrite firstn_all.
  split; [done|]. rewrite Hheap, <- app_assoc.
  pose proof (mapM_heap_seq (heap st) (ELFSymbol.mk <$> fileSymbols (file sA)) ws)
    as Hm.
  rewrite length_fmap in Hm. rewrite Hm. f_equal.
  rewrite <- list_fmap_compose. apply list_fmap_id.
Qed.

Lemma getSymbols_memo_survives_other_calls_witness :
  this Sample.secF ≠ this Sample.secK ∧
  isec Sample.secF = Some Sample.isecF ∧
  fileSymbols (file Sample.isecF) ≠ [] ∧
  cacheOf initialState (this Sample.secF) = [] ∧
  getSymbols Sample.secF initialState = Ok (mkSymbolsRef 3, Sample.stF) ∧
  getSymbols Sample.secK Sample.stF = Ok (mkSymbolsRef 3, Sample.stFK) ∧
  ∃ st3,
    getSymbols Sample.secF Sample.stFK = Ok (mkSymbolsRef 3, st3) ∧
    heap st3 = heap Sample.stFK ∧
    readRef st3 (mkSymbolsRef 3) = readRef Sample.stF (mkSymbolsRef 3) ∧
    readSymbols st3 (mkSymbolsRef 3) = Ok (fileSymbols (file Sample.isecF)).
Proof.
  split; [discriminate|]. split; [reflexivity|]. split; [discriminate|].
  split; [reflexivity|].
  do 2 (split; [vm_compute; reflexivity|]).
  apply (getSymbols_memo_survives_other_calls Sample.secF Sample.secK
           Sample.isecF initialState Sample.stF Sample.stFK
           (mkSymbolsRef 3) (mkSymbolsRef 3)).
  - discriminate.
  - reflexivity.
  - discriminate.
  - reflexivity.
  - vm_compute; reflexivity.
  - vm_compute; reflexivity.
Defined.

(** X13: wrappers are allocated per section.  The first accesses of two
    sections allocate one wrapper for every symbol of the file of each, also
    when both sections come from the same file, and no wrapper is shared
    between the two memoized lists. *)
Theorem getSymbols_wrappers_per_section (secA secB : t)
    (sA sB : InputSectionBase) (st st1 st2 : AdapterState)
    (rA rB : SymbolsRef) :
  this secA ≠ this secB →
  isec secA = Some sA → isec secB = Some sB →
  cacheOf st (this secA) = [] → cacheOf st (this secB) = [] →
  getSymbols secA st = Ok (rA, st1) →
  getSymbols secB st1 = Ok (rB, st2) →
  length (heap st2)
  = (length (heap st) + length (fileSymbols (file sA))
     + length (fileSymbols (file sB)))%nat ∧
  ∀ p, p ∈ cacheOf st2 (this secA) → p ∉ cacheOf st2 (this secB).
Proof.
  intros Hne HsA HsB HcA HcB HA HB.
  rewrite (getSymbols_fill secA sA st HsA HcA) in HA. simpl in HA.
  injection HA as <- <-.
  rewrite (getSymbols_fill secB sB _ HsB) in HB.
  - simpl in HB. injection HB as <- <-. unfold cacheOf. simpl.
    rewrite lookup_insert_eq, lookup_insert_ne, lookup_insert_eq by done.
    rewrite !length_app, !length_fmap. split; [done|]. simpl.
    intros p [? Hp]%elem_of_seq [? Hp']%elem_of_seq. lia.
  - unfold cacheOf in *. simpl. by rewrite lookup_insert_ne.
Qed.

Lemma getSymbols_wrappers_per_section_witness :
  this Sample.secF ≠ this Sample.secG ∧
  isec Sample.secF = Some Sample.isecF ∧
  isec Sample.secG = Some Sample.isecG ∧
  cacheOf initialState (this Sample.secF) = [] ∧
  cacheOf initialState (this Sample.secG) = [] ∧
  getSymbols Sample.secF initialState = Ok (mkSymbolsRef 3, Sample.stF) ∧
  getSymbols Sample.secG Sample.stF = Ok (mkSymbolsRef 3, Sample2.stFG) ∧
  length (heap Sample2.stFG)
  = (length (heap initialState) + length (fileSymbols (file Sample.isecF))
     + length (fileSymbols (file Sample.isecG)))%nat ∧
  ∀ p, p ∈ cacheOf Sample2.stFG (this Sample.secF) →
       p ∉ cacheOf Sample2.stFG (this Sample.secG).
Proof.
  split; [discriminate|]. do 4 (split; [reflexivity|]).
  do 2 (split; [vm_compute; reflexivity|]).
  apply (getSymbols_wrappers_per_section Sample.secF Sample.secG
           Sample.isecF Sample.isecG initialState Sample.stF Sample2.stFG
           (mkSymbolsRef 3) (mkSymbolsRef 3));
    first [discriminate | reflexivity | vm_compute; reflexivity].
Defined.

(** X14: for a section of an object file without symbols [getSymbols]
    returns an empty array and allocates nothing, and the memoized list
    stays empty, so that the next access goes through the file's symbol
    table again. *)
Theorem getSymbols_file_without_symbols (sec : t) (s : InputSectionBase)
    (st : AdapterState) :
  isec sec = Some s → fileSymbols (file s) = [] →
  cacheOf st (this sec) = [] →
  ∃ st',
    getSymbols sec st = Ok (mkSymbolsRef 0, st') ∧
    heap st' = heap st ∧ result st' = [] ∧ cacheOf st' (this sec) = [] ∧
    readSymbols st' (mkSymbolsRef 0) = Ok [].
Proof.
  intros Hs Hsyms Hc. rewrite (getSymbols_fill sec s st Hs Hc), Hsyms. simpl.
  eexists. split; [reflexivity|]. simpl. rewrite app_nil_r.
  unfold cacheOf. simpl. by rewrite lookup_insert_eq.
Qed.

Lemma getSymbols_file_without_symbols_witness :
  isec Sample2.secE = Some Sample2.isecE ∧
  fileSymbols (file Sample2.isecE) = [] ∧
  cacheOf Sample.stF (this Sample2.secE) = [] ∧
  ∃ st',
    getSymbols Sample2.secE Sample.stF = Ok (mkSymbolsRef 0, st') ∧
    heap st' = heap Sample.stF ∧ result st' = [] ∧
    cacheOf st' (this Sample2.secE) = [] ∧
    readSymbols st' (mkSymbolsRef 0) = Ok [].
Proof.
  do 3 (split; [reflexivity|]).
  apply (getSymbols_file_without_symbols Sample2.secE Sample2.isecE Sample.stF);
    reflexivity.
Defined.

(** ** The rekeyed index map *)

Lemma convertMap_snoc (l : list (t * Z)) (sec : t) (idx : Z) :
  convertMap (l ++ [(sec, idx)])
  = <[addr <$> getSection sec := idx]> (convertMap l).
Proof. unfold convertMap. by rewrite foldl_app. Qed.

(** X15: when the entries of [sectionToIdx] wrap pairwise different
    sections, the rekeyed map holds exactly the entries of [sectionToIdx]
    under the addresses of the wrapped sections: a key maps to an index if
    and only if some entry with that index wraps the section at that
    address. *)
Theorem convertMap_lookup (l : list (t * Z)) (k : option N) (idx : Z) :
  NoDup ((λ e, addr <$> getSection e.1) <$> l) →
  convertMap l !! k = Some idx
  ↔ ∃ sec, (sec, idx) ∈ l ∧ addr <$> getSection sec = k.
Proof.
  induction l as [|[sec' idx'] l IH] using rev_ind; intros Hnd.
  - unfold convertMap. simpl. rewrite lookup_empty. split; [done|].
    by intros (sec & Hin%elem_of_nil & _).
  - rewrite fmap_app in Hnd. apply NoDup_app in Hnd as (Hnd & Hnotin & _).
    simpl in Hnotin. rewrite convertMap_snoc.
    destruct (decide (addr <$> getSection sec' = k)) as [<-|Hk].
    + rewrite lookup_insert_eq. split.
      * intros [= <-]. exists sec'. split; [|done].
        apply elem_of_app. right. apply list_elem_of_here.
      * intros (sec & [Hin|Hin]%elem_of_app & Hkey).
        -- exfalso. apply (Hnotin (addr <$> getSection sec')).
           ++ apply list_elem_of_fmap. exists (sec, idx). simpl.
              by rewrite Hkey.
           ++ apply list_elem_of_here.
        -- apply list_elem_of_singleton in Hin. by injection Hin as -> ->.
    + rewrite lookup_insert_ne by done. rewrite (IH Hnd). split.
      * intros (sec & Hin & Hkey). exists sec. split; [|done].
        apply elem_of_app. by left.
      * intros (sec & [Hin|Hin]%elem_of_app & Hkey); [by exists sec|].
        apply list_elem_of_singleton in Hin. injection Hin as -> ->. done.
Qed.

Lemma convertMap_lookup_witness :
  NoDup ((λ e : t * Z, addr <$> getSection e.1)
           <$> [(Sample.secF, 0); (Sample.secG, 1); (Sample2.secNull, 2)]) ∧
  (convertMap [(Sample.secF, 0); (Sample.secG, 1); (Sample2.secNull, 2)]
     !! Some 2%N = Some 1
   ↔ ∃ sec, (sec, 1) ∈ [(Sample.secF, 0); (Sample.secG, 1);
                         (Sample2.secNull, 2)] ∧
            addr <$> getSection sec = Some 2%N).
Proof.
  assert (NoDup ((λ e : t * Z, addr <$> getSection e.1)
            <$> [(Sample.secF, 0); (Sample.secG, 1); (Sample2.secNull, 2)]))
    as Hnd.
  { simpl. repeat constructor; rewrite ?elem_of_cons, ?elem_of_nil;
      intros H; repeat destruct H as [H|H]; try discriminate; done. }
  split; [exact Hnd|].
  exact (convertMap_lookup _ (Some 2%N) 1 Hnd).
Defined.

(** ** Sections with content *)

(** X16: whenever [getSectionHash] produces a signature for a section with
    content, the signature has an entry. *)
Theorem getSectionHash_nonempty_signature
    (xxHash64 : list byte → Z) (oob : list byte → nat → nat → outcome (list byte))
    (sec : t) (hashes sig : list Z) (sectionToIdx : list (t * Z)) :
  hasValidData sec = true →
  getSectionHash xxHash64 oob sec hashes sectionToIdx = Ok sig →
  sig ≠ [].
Proof.
  intros Hv (s & pushed & Hs & Hloop & ->)%getSectionHash_Ok.
  unfold hasValidData in Hv. rewrite Hs in Hv.
  apply contentLoop_Ok in Hloop as (p & Hp & Hlen & _). simpl in Hp. subst p.
  destruct pushed as [|h pushed].
  - simpl in Hlen. rewrite <- Hlen in Hv. discriminate.
  - intros Hnil.
    assert (h ∈ unique (sort (hashes ++ h :: pushed))) as Hin.
    { apply elem_of_unique_sort, elem_of_app. right. apply list_elem_of_here. }
    rewrite Hnil in Hin. by apply elem_of_nil in Hin.
Qed.

Lemma getSectionHash_nonempty_signature_witness :
  hasValidData Sample.secF = true ∧
  getSectionHash le_bytes (oob_read Sample.zeros) Sample.secF [] []
  = Ok [2; 513] ∧
  [2; 513] ≠ [].
Proof.
  split; [reflexivity|]. split; [vm_compute; reflexivity|].
  apply (getSectionHash_nonempty_signature le_bytes (oob_read Sample.zeros)
           Sample.secF [] [2; 513] []).
  - reflexivity.
  - vm_compute; reflexivity.
Defined.
